(** * codeCleaner: the SQL dump line filter [clean_sql]

    A shallow embedding of [db_schema/codeCleaner.py] and the proofs of its
    filtering contract.

    Python text is modelled as a list of Unicode code points.  The string
    methods the script calls ([strip], [rstrip], [startswith], [in],
    [split(sep)[0]], [join], [readlines]) are defined first, then the loop
    of [clean_sql], then the file-level function over a small model of the
    file system. *)

From Stdlib Require Import List Bool NArith Ascii String Lia.
Import ListNotations.

Local Open Scope N_scope.
Local Open Scope list_scope.

(** ** Python text *)

(** A character is a Unicode code point; a [str] is a sequence of them. *)
Definition char := N.
Definition str := list char.

(** A literal of the source, as code points.  The script's literals are
    all ASCII. *)
Definition lit (s : string) : str :=
  map N_of_ascii (list_ascii_of_string s).

Definition LF : char := 10.
Definition CR : char := 13.
Definition HYPHEN : char := 45.

(** [str.isspace] on one character: the white-space code points of
    CPython ([_PyUnicode_IsWhitespace]). *)
Definition isspace (c : char) : bool :=
  ((0x09 <=? c) && (c <=? 0x0D))
  || ((0x1C <=? c) && (c <=? 0x20))
  || (c =? 0x85) || (c =? 0xA0) || (c =? 0x1680)
  || ((0x2000 <=? c) && (c <=? 0x200A))
  || (c =? 0x2028) || (c =? 0x2029) || (c =? 0x202F)
  || (c =? 0x205F) || (c =? 0x3000).

(** [not s]: the truth value of a string is its non-emptiness. *)
Definition is_empty (s : str) : bool :=
  match s with
  | [] => true
  | _ :: _ => false
  end.

(** [s.lstrip()] *)
Fixpoint lstrip (s : str) : str :=
  match s with
  | [] => []
  | c :: r => if isspace c then lstrip r else s
  end.

(** [s.rstrip()]: a character is kept unless it is white space and
    nothing is kept after it. *)
Fixpoint rstrip (s : str) : str :=
  match s with
  | [] => []
  | c :: r =>
      match rstrip r with
      | [] => if isspace c then [] else [c]
      | r' => c :: r'
      end
  end.

(** [s.strip()] *)
Definition strip (s : str) : str := lstrip (rstrip s).

(** The white space [s] starts with, which [lstrip] removes. *)
Fixpoint leading_space (s : str) : str :=
  match s with
  | [] => []
  | c :: r => if isspace c then c :: leading_space r else []
  end.

(** [s.startswith(p)] *)
Fixpoint startswith (p s : str) : bool :=
  match p, s with
  | [], _ => true
  | _ :: _, [] => false
  | a :: p', b :: s' => (a =? b) && startswith p' s'
  end.

(** [p in s]: [p] occurs in [s] at some position. *)
Fixpoint contains (p s : str) : bool :=
  startswith p s ||
  match s with
  | [] => false
  | _ :: r => contains p r
  end.

(** [s.split(sep)[0]] for a non-empty [sep]: the text before the first
    occurrence of [sep], all of [s] when there is none. *)
Fixpoint split0 (sep s : str) : str :=
  if startswith sep s then []
  else match s with
       | [] => []
       | c :: r => c :: split0 sep r
       end.

(** [sep.join(parts)] *)
Fixpoint join (sep : str) (parts : list str) : str :=
  match parts with
  | [] => []
  | [p] => p
  | p :: rest => p ++ sep ++ join sep rest
  end.

(** ** Reading a text file

    [open(path, "r")] reads with universal newlines: each of CR LF, CR
    and LF ends a line and reaches the program as LF.  As in the decoder
    of the [io] module, [pendingcr] records that the previous character
    was a CR, whose LF has been produced already. *)
Fixpoint translate_newlines (pendingcr : bool) (s : str) : str :=
  match s with
  | [] => []
  | c :: r =>
      if c =? CR then LF :: translate_newlines true r
      else if (c =? LF) && pendingcr then translate_newlines false r
      else c :: translate_newlines false r
  end.

Definition universal_newlines (s : str) : str := translate_newlines false s.

(** The lines of a translated text, each with its LF, the last one
    without when the text does not end in LF. *)
Fixpoint lines_keepends (s : str) : list str :=
  match s with
  | [] => []
  | c :: r =>
      if c =? LF then [c] :: lines_keepends r
      else match lines_keepends r with
           | [] => [[c]]
           | l :: ls => (c :: l) :: ls
           end
  end.

(** [f.readlines()] on a file whose decoded content is [content]. *)
Definition readlines (content : str) : list str :=
  lines_keepends (universal_newlines content).

(** The lines [readlines] returns for a file made of [parts] joined by
    LF: every part but the last is followed by its LF. *)
Fixpoint with_newlines (parts : list str) : list str :=
  match parts with
  | [] => []
  | [p] => [p]
  | p :: rest => (p ++ [LF]) :: with_newlines rest
  end.

(** The number of LF characters of [s]. *)
Definition count_LF (s : str) : nat := count_occ (A := char) N.eq_dec s LF.

Definition is_newline (c : char) : bool := (c =? LF) || (c =? CR).

(** [s] has no line break in it. *)
Definition singleline (s : str) : bool :=
  forallb (fun c => negb (is_newline c)) s.

Definition no_CR (s : str) : bool :=
  forallb (fun c => negb (c =? CR)) s.

(** ** The filter *)

Definition dashes : str := lit "--".

Definition ignore_keywords : list str :=
  [ lit "OWNER TO";
    lit "ACL";
    lit "GRANT ALL";
    lit "REVOKE ALL";
    lit "SET default_table_access_method";
    lit "SELECT pg_catalog.set_config('search_path'";
    lit "\restrict" ].

(** [any(kw in raw_line for kw in ignore_keywords)] *)
Definition any_keyword_in (raw_line : str) : bool :=
  existsb (fun kw => contains kw raw_line) ignore_keywords.

(** One iteration of the loop of [clean_sql]: [None] is [continue],
    [Some l] is [cleaned_lines.append(l)]. *)
Definition clean_line (line : str) : option str :=
  let raw_line := strip line in
  if startswith dashes raw_line || is_empty raw_line then None
  else if any_keyword_in raw_line then None
  else if contains dashes line then
    let line := rstrip (split0 dashes line) in
    if is_empty (strip line) then None
    else Some (rstrip line)
  else Some (rstrip line).

(** The effect of one iteration on [cleaned_lines]. *)
Definition loop_step (cleaned_lines : list str) (line : str) : list str :=
  match clean_line line with
  | None => cleaned_lines
  | Some l => cleaned_lines ++ [l]
  end.

(** The loop: [cleaned_lines] starts empty and grows at its end. *)
Definition clean_loop (lines : list str) : list str :=
  fold_left loop_step lines [].

(** What [clean_sql] writes for an input file of content [content]. *)
Definition clean_text (content : str) : str :=
  join [LF] (clean_loop (readlines content)).

(** ** Files and the whole function

    A path that can be opened for reading holds a file: bytes that are
    the UTF-8 encoding of a text, or bytes that are not valid UTF-8.  For
    each path the file system also says what an attempt to write it meets.
    Writing in text mode on a POSIX system leaves LF as it is.  The world
    keeps the list of the calls of [open] and what was printed.  The disk
    is indexed by the names given to [open]; links between names are not
    modelled. *)
Definition path := string.

Inductive file :=
| Text (content : str)
| Garbled.

(** What writing a path meets: the open and the write succeed; the open
    succeeds, which empties the file, and the write fails, leaving [remains]
    in the file; the open fails. *)
Inductive on_write :=
| Accepts
| Breaks (remains : file)
| Refuses.

Inductive open_mode :=
| ForReading
| ForWriting.

Record world := {
  disk : path -> option file;
  access : path -> on_write;
  opens : list (open_mode * path);
  stdout : list string
}.

(** The text of the file at [p], when it opens and decodes. *)
Definition files (w : world) (p : path) : option str :=
  match disk w p with
  | Some (Text content) => Some content
  | _ => None
  end.

(** [p] can be created or overwritten, and written in full. *)
Definition writable (w : world) (p : path) : bool :=
  match access w p with
  | Accepts => true
  | _ => false
  end.

(** The exceptions the two [with open] blocks can raise.  All are
    [OSError] but [UnicodeDecodeError], which is a [ValueError]. *)
Inductive exception :=
| CannotOpenForReading (p : path)
| UnicodeDecodeError (p : path)
| CannotOpenForWriting (p : path)
| WriteFailed (p : path).


Inductive result (A : Type) :=
| Ok (a : A)
| Raise (e : exception).
Arguments Ok {A} a.
Arguments Raise {A} e.

(** A computation changes the world and returns or raises; what was done
    before an exception stays done. *)
Definition io (A : Type) := world -> result A * world.

Definition ret {A} (a : A) : io A := fun w => (Ok a, w).

Definition raise {A} (e : exception) : io A := fun w => (Raise e, w).

Definition bind {A B} (m : io A) (k : A -> io B) : io B :=
  fun w =>
    match m w with
    | (Ok a, w') => k a w'
    | (Raise e, w') => (Raise e, w')
    end.

Declare Scope io_scope.
Delimit Scope io_scope with io.
Notation "x <- m ;; k" := (bind m (fun x => k))
  (at level 61, m at next level, right associativity) : io_scope.
Notation "m ;; k" := (bind m (fun _ => k))
  (at level 61, right associativity) : io_scope.

(** [print(msg)] *)
Definition print (msg : string) : io unit :=
  fun w => (Ok tt, {| disk := disk w; access := access w;
                      opens := opens w; stdout := stdout w ++ [msg] |}).

(** The world after a call of [open(p, mode)]. *)
Definition opened (mode : open_mode) (p : path) (w : world) : world :=
  {| disk := disk w; access := access w;
     opens := opens w ++ [(mode, p)]; stdout := stdout w |}.

(** The world where the file at [p] is [f]. *)
Definition store (p : path) (f : file) (w : world) : world :=
  {| disk := fun q => if String.eqb q p then Some f else disk w q;
     access := access w; opens := opens w; stdout := stdout w |}.

(** [open(p, "r", encoding="utf-8")] *)
Definition open_for_reading (p : path) : io file :=
  fun w =>
    match disk w p with
    | Some f => (Ok f, opened ForReading p w)
    | None => (Raise (CannotOpenForReading p), opened ForReading p w)
    end.

(** [f.readlines()] on the file opened at [p]: the whole file is decoded,
    strictly, before any line is returned. *)
Definition f_readlines (p : path) (f : file) : io (list str) :=
  match f with
  | Text content => ret (readlines content)
  | Garbled => raise (UnicodeDecodeError p)
  end.

(** [open(p, "w", encoding="utf-8")]: the file is created, or emptied. *)
Definition open_for_writing (p : path) : io unit :=
  fun w =>
    match access w p with
    | Refuses => (Raise (CannotOpenForWriting p), opened ForWriting p w)
    | _ => (Ok tt, store p (Text []) (opened ForWriting p w))
    end.

(** [f.write(data)] and the closing of the file opened at [p]. *)
Definition f_write (p : path) (data : str) : io unit :=
  fun w =>
    match access w p with
    | Breaks remains => (Raise (WriteFailed p), store p remains w)
    | _ => (Ok tt, store p (Text data) w)
    end.

Definition clean_sql (input_file output_file : path) : io unit :=
  (print ("Cleaning " ++ input_file ++ " -> " ++ output_file ++ "...")%string ;;
   f <- open_for_reading input_file ;;
   lines <- f_readlines input_file f ;;
   let cleaned_lines := clean_loop lines in
   open_for_writing output_file ;;
   f_write output_file (join [LF] cleaned_lines) ;;
   print ("Cleaned SQL saved to " ++ output_file)%string)%io.

(** The two messages of [clean_sql]. *)
Definition start_message (input_file output_file : path) : string :=
  ("Cleaning " ++ input_file ++ " -> " ++ output_file ++ "...")%string.

Definition done_message (output_file : path) : string :=
  ("Cleaned SQL saved to " ++ output_file)%string.

(** ** The default run

    The block under [if __name__ == "__main__"]: each of the two
    conventional dumps that exists is cleaned into its [_cleaned] sibling.
    [os.path.exists] is a question to the operating system; its answer is
    a parameter of the model. *)
Section DefaultRun.

Variable path_exists : world -> path -> bool.

(** [os.path.exists(p)] *)
Definition os_path_exists (p : path) : io bool :=
  fun w => (Ok (path_exists w p), w).

Definition target_data : path := "viora_pluse_v1_data.sql"%string.
Definition target_schema : path := "viora_pluse_v1_schema.sql"%string.
Definition cleaned_data : path := "viora_pluse_v1_data_cleaned.sql"%string.
Definition cleaned_schema : path :=
  "viora_pluse_v1_schema_cleaned.sql"%string.

Definition main : io unit :=
  (found <- os_path_exists target_data ;;
   (if found then clean_sql target_data cleaned_data else ret tt) ;;
   found <- os_path_exists target_schema ;;
   (if found then clean_sql target_schema cleaned_schema else ret tt))%io.

End DefaultRun.

(** One conditional call of the default run. *)
Definition clean_if_found (found : bool) (input_file output_file : path)
  : io unit :=
  if found then clean_sql input_file output_file else ret tt.

(** The calls of [open] one conditional call may make. *)
Definition opens_of (input_file output_file : path)
           (ev : open_mode * path) : Prop :=
  ev = (ForReading, input_file) \/ ev = (ForWriting, output_file).

(** A file that can be opened exists: the least an answer of
    [os.path.exists] has to agree with. *)
Definition readable_exists (w : world) (p : path) : bool :=
  match disk w p with
  | Some _ => true
  | None => false
  end.

(** A directory holding both conventional dumps, where any file can be
    created. *)
Definition default_world : world :=
  {| disk := fun p =>
       if String.eqb p target_data
       then Some (Text (lit "INSERT INTO t VALUES (1); -- seed row" ++ [LF]))
       else if String.eqb p target_schema
       then Some (Text (lit "CREATE TABLE t (id int);" ++ [CR; LF]
                        ++ lit "ALTER TABLE t OWNER TO admin;" ++ [CR; LF]))
       else None;
     access := fun _ => Accepts;
     opens := [];
     stdout := [] |}.

(** The same directory, read-only. *)
Definition locked_world : world :=
  {| disk := disk default_world;
     access := fun _ => Refuses;
     opens := [];
     stdout := [] |}.



(** ** Predicates used in the statements *)

(** The first character of [p] is not white space. *)
Definition head_nonspace (p : str) : bool :=
  match p with
  | [] => false
  | k :: _ => negb (isspace k)
  end.

(** No character of [p] is white space. *)
Definition spacefree (p : str) : bool :=
  forallb (fun c => negb (isspace c)) p.

(** The two discarding rules, on the trimmed line. *)
Definition passes_filters (line : str) : bool :=
  let raw_line := strip line in
  negb (startswith dashes raw_line || is_empty raw_line)
  && negb (any_keyword_in raw_line).

(** The text a kept line contributes: the line up to its first [--],
    without trailing white space. *)
Definition strip_comment (line : str) : str :=
  rstrip (split0 dashes line).

(** A line as [readlines] returns it: no line break inside, and one LF
    or nothing at the end. *)
Definition read_line (l : str) : Prop :=
  exists body, singleline body = true /\ (l = body \/ l = body ++ [LF]).

(** A part that can stand as a line of a file: non-empty, no line break. *)
Definition line_text (p : str) : Prop := p <> [] /\ singleline p = true.

(** The shape of what [readlines] returns: only the last line can lack
    its LF. *)
Fixpoint file_lines (lines : list str) : Prop :=
  match lines with
  | [] => True
  | l :: rest =>
      (rest = [] \/ exists body, l = body ++ [LF]) /\ file_lines rest
  end.

(** The output lines of any input. *)
Definition clean_output (out : str) : Prop :=
  forallb isspace out = false
  /\ rstrip out = out
  /\ contains dashes out = false
  /\ any_keyword_in out = false.

(** A file system with one dump, [dump.sql], in a directory where
    [dump_cleaned.sql] can be created. *)
Definition sample_world : world :=
  {| disk := fun p =>
       if String.eqb p "dump.sql"%string
       then Some (Text
                    (lit "-- PostgreSQL database dump" ++ [CR; LF]
                     ++ lit "CREATE TABLE t (id int);  " ++ [LF]
                     ++ [LF]
                     ++ lit "ALTER TABLE t OWNER TO admin;" ++ [LF]
                     ++ lit "  INSERT INTO t VALUES (1); -- seed row" ++ [LF]))
       else None;
     access := fun p =>
       if String.eqb p "dump_cleaned.sql"%string then Accepts else Refuses;
     opens := [];
     stdout := [] |}.

(** * Properties of the string operations *)

Lemma isspace_LF : isspace LF = true.
Proof. reflexivity. Qed.

Lemma isspace_HYPHEN : isspace HYPHEN = false.
Proof. reflexivity. Qed.

Lemma is_empty_true (s : str) : is_empty s = true <-> s = [].
Proof. destruct s; simpl; split; congruence. Qed.

Lemma is_empty_false (s : str) : is_empty s = false <-> s <> [].
Proof. destruct s; simpl; split; congruence. Qed.

(** *** [rstrip] *)

Lemma rstrip_cons (c : char) (r : str) :
  rstrip (c :: r)
  = if isspace c && is_empty (rstrip r) then [] else c :: rstrip r.
Proof. simpl. destruct (rstrip r), (isspace c); reflexivity. Qed.

Lemma rstrip_nonspace (c : char) (r : str) :
  isspace c = false -> rstrip (c :: r) = c :: rstrip r.
Proof. intros H. rewrite rstrip_cons, H. reflexivity. Qed.

Lemma rstrip_nil_iff (s : str) :
  rstrip s = [] <-> forallb isspace s = true.
Proof.
  induction s as [|c r IH].
  - simpl. tauto.
  - rewrite rstrip_cons. simpl forallb.
    rewrite andb_true_iff, <- IH.
    destruct (isspace c), (rstrip r); simpl; intuition congruence.
Qed.

Lemma rstrip_app_space (s ws : str) :
  forallb isspace ws = true -> rstrip (s ++ ws) = rstrip s.
Proof.
  intros Hws. induction s as [|c r IH].
  - simpl. now apply rstrip_nil_iff.
  - rewrite <- app_comm_cons, !rstrip_cons, IH. reflexivity.
Qed.

Lemma rstrip_decompose (s : str) :
  exists ws, s = rstrip s ++ ws /\ forallb isspace ws = true.
Proof.
  induction s as [|c r (ws & Heq & Hws)].
  - exists []. auto.
  - rewrite rstrip_cons.
    destruct (isspace c) eqn:Hc, (is_empty (rstrip r)) eqn:He; simpl.
    + exists (c :: r). split; [reflexivity|].
      simpl. rewrite Hc. apply rstrip_nil_iff. now apply is_empty_true.
    + exists ws. split; [now f_equal | assumption].
    + exists ws. split; [now f_equal | assumption].
    + exists ws. split; [now f_equal | assumption].
Qed.

Lemma rstrip_idempotent (s : str) : rstrip (rstrip s) = rstrip s.
Proof.
  induction s as [|c r IH]; [reflexivity|].
  rewrite rstrip_cons.
  destruct (isspace c && is_empty (rstrip r)) eqn:E; [reflexivity|].
  rewrite rstrip_cons, IH, E. reflexivity.
Qed.

Lemma rstrip_isspace (s : str) :
  forallb isspace (rstrip s) = forallb isspace s.
Proof.
  destruct (rstrip_decompose s) as (ws & Heq & Hws).
  rewrite Heq at 2. rewrite forallb_app, Hws, andb_true_r. reflexivity.
Qed.

(** [rstrip] is monotone for the prefix order. *)
Lemma rstrip_prefix_mono (p q : str) :
  exists t, rstrip (p ++ q) = rstrip p ++ t.
Proof.
  induction p as [|c r (t & Ht)].
  - exists (rstrip q). reflexivity.
  - rewrite <- app_comm_cons, !rstrip_cons, Ht.
    destruct (isspace c) eqn:Hc; simpl.
    + destruct (rstrip r) as [|x r'] eqn:Hr; simpl.
      * destruct (is_empty t); [exists [] | exists (c :: t)]; reflexivity.
      * exists t. reflexivity.
    + exists t. reflexivity.
Qed.

(** A string that [rstrip] leaves alone does not end in white space. *)
Lemma rstrip_fixed_last (t : str) (c : char) :
  rstrip (t ++ [c]) = t ++ [c] -> isspace c = false.
Proof.
  intros H. destruct (isspace c) eqn:Hc; [exfalso | reflexivity].
  rewrite rstrip_app_space in H by (simpl; now rewrite Hc).
  destruct (rstrip_decompose t) as (ws & Heq & _).
  apply (f_equal (@List.length char)) in H, Heq.
  rewrite !length_app in *. simpl in *. lia.
Qed.

(** *** [lstrip] and [strip] *)

Lemma lstrip_head (s : str) (c : char) (r : str) :
  lstrip s = c :: r -> isspace c = false.
Proof.
  induction s as [|a s IH]; simpl; [discriminate|].
  destruct (isspace a) eqn:Ha; [exact IH|].
  intros [= <- _]. exact Ha.
Qed.

Lemma lstrip_decompose (s : str) :
  exists ws, s = ws ++ lstrip s /\ forallb isspace ws = true.
Proof.
  induction s as [|a s (ws & Heq & Hws)]; simpl.
  - exists []. auto.
  - destruct (isspace a) eqn:Ha.
    + exists (a :: ws). simpl. rewrite Ha. split; [now f_equal | assumption].
    + exists []. auto.
Qed.

Lemma strip_space_cons (c : char) (r : str) :
  isspace c = true -> strip (c :: r) = strip r.
Proof.
  intros Hc. unfold strip. rewrite rstrip_cons, Hc. simpl.
  destruct (rstrip r); simpl; [reflexivity | now rewrite Hc].
Qed.

Lemma strip_nonspace_cons (c : char) (r : str) :
  isspace c = false -> strip (c :: r) = c :: rstrip r.
Proof.
  intros Hc. unfold strip. rewrite rstrip_nonspace by assumption.
  simpl. now rewrite Hc.
Qed.

Lemma strip_nil_iff (s : str) :
  strip s = [] <-> forallb isspace s = true.
Proof.
  induction s as [|c r IH]; simpl forallb.
  - unfold strip. simpl. tauto.
  - destruct (isspace c) eqn:Hc; simpl.
    + now rewrite strip_space_cons.
    + rewrite strip_nonspace_cons by assumption. split; discriminate.
Qed.

Lemma strip_app_space (s ws : str) :
  forallb isspace ws = true -> strip (s ++ ws) = strip s.
Proof. intros H. unfold strip. now rewrite rstrip_app_space. Qed.

(** *** [startswith], [in] and [split(sep)[0]] *)

Lemma startswith_spec (p s : str) :
  startswith p s = true <-> exists r, s = p ++ r.
Proof.
  revert s. induction p as [|a p IH]; intros s; simpl.
  - split; [intros _; now exists s | reflexivity].
  - destruct s as [|b s].
    + split; [discriminate | intros (r & [=])].
    + rewrite andb_true_iff, N.eqb_eq, IH. split.
      * intros (-> & r & ->). now exists r.
      * intros (r & [= -> ->]). split; [reflexivity | now exists r].
Qed.

Lemma contains_spec (p s : str) :
  contains p s = true <-> exists a b, s = a ++ p ++ b.
Proof.
  induction s as [|c s IH]; simpl; rewrite orb_true_iff.
  - rewrite startswith_spec. split.
    + intros [(r & ->) | [=]]. now exists [], r.
    + intros (a & b & H). left. destruct a; [now exists b|discriminate].
  - rewrite startswith_spec, IH. split.
    + intros [(r & ->) | (a & b & ->)]; [now exists [], r | now exists (c :: a), b].
    + intros ([|x a] & b & H); simpl in H.
      * left. now exists b.
      * injection H as -> ->. right. now exists a, b.
Qed.

Lemma contains_app_l (p a b : str) :
  contains p a = true -> contains p (a ++ b) = true.
Proof.
  rewrite !contains_spec. intros (x & y & ->).
  exists x, (y ++ b). now rewrite <- !app_assoc.
Qed.

Lemma contains_app_r (p a b : str) :
  contains p b = true -> contains p (a ++ b) = true.
Proof.
  rewrite !contains_spec. intros (x & y & ->).
  exists (a ++ x), y. now rewrite <- !app_assoc.
Qed.

Lemma startswith_space (p : str) (c : char) (s : str) :
  head_nonspace p = true -> isspace c = true -> startswith p (c :: s) = false.
Proof.
  destruct p as [|k p]; simpl; [discriminate|].
  intros Hk Hc. destruct (N.eqb_spec k c) as [->|]; [|reflexivity].
  rewrite Hc in Hk. discriminate.
Qed.

Lemma contains_skip_space (p ws s : str) :
  head_nonspace p = true -> forallb isspace ws = true ->
  contains p (ws ++ s) = contains p s.
Proof.
  intros Hp. induction ws as [|w ws IH]; simpl; [reflexivity|].
  rewrite andb_true_iff. intros [Hw Hws].
  destruct p as [|k p]; [discriminate|].
  change (startswith (k :: p) (w :: ws ++ s)
          || contains (k :: p) (ws ++ s) = contains (k :: p) s).
  rewrite startswith_space by assumption. simpl orb. now apply IH.
Qed.

Lemma contains_lstrip (p s : str) :
  head_nonspace p = true -> contains p (lstrip s) = contains p s.
Proof.
  intros Hp. destruct (lstrip_decompose s) as (ws & Heq & Hws).
  rewrite Heq at 2. symmetry. now apply contains_skip_space.
Qed.

Lemma startswith_app_space (p s ws : str) :
  spacefree p = true -> forallb isspace ws = true ->
  startswith p (s ++ ws) = startswith p s.
Proof.
  intros Hp Hws. revert s. induction p as [|a p IH]; intros s; [reflexivity|].
  simpl in Hp. apply andb_true_iff in Hp as [Ha Hp].
  destruct s as [|b s]; simpl.
  - destruct ws as [|w ws]; [reflexivity|]. simpl in Hws.
    apply andb_true_iff in Hws as [Hw _].
    destruct (N.eqb_spec a w) as [->|]; [|reflexivity].
    rewrite Hw in Ha. discriminate.
  - now rewrite IH.
Qed.

Lemma spacefree_head (p : str) :
  spacefree p = true -> p <> [] -> head_nonspace p = true.
Proof.
  destruct p as [|k p]; [congruence|]. simpl.
  intros H _. now apply andb_true_iff in H as [H _].
Qed.

Lemma contains_app_space (p s ws : str) :
  spacefree p = true -> p <> [] -> forallb isspace ws = true ->
  contains p (s ++ ws) = contains p s.
Proof.
  intros Hp Hne Hws. induction s as [|c s IH].
  - simpl app.
    rewrite <- (contains_skip_space p ws []) by (auto using spacefree_head).
    now rewrite app_nil_r.
  - simpl app. simpl contains. rewrite IH.
    change (c :: s ++ ws) with ((c :: s) ++ ws).
    now rewrite startswith_app_space.
Qed.

Lemma split0_prefix (sep s : str) :
  exists rest, s = split0 sep s ++ rest.
Proof.
  induction s as [|c s (rest & Heq)]; simpl.
  - destruct (startswith sep []); now exists [].
  - destruct (startswith sep (c :: s)); [now exists (c :: s)|].
    exists rest. simpl. now f_equal.
Qed.

Lemma split0_absent (sep s : str) :
  contains sep s = false -> split0 sep s = s.
Proof.
  induction s as [|c s IH]; simpl; rewrite orb_false_iff; intros [H1 H2].
  - now rewrite H1.
  - rewrite H1. f_equal. now apply IH.
Qed.

Lemma startswith_app_l (p s t : str) :
  startswith p s = true -> startswith p (s ++ t) = true.
Proof.
  rewrite !startswith_spec. intros (r & ->). exists (r ++ t).
  now rewrite app_assoc.
Qed.

(** Nothing before the first occurrence of [sep] is an occurrence. *)
Lemma split0_no_sep (sep s : str) :
  sep <> [] -> contains sep (split0 sep s) = false.
Proof.
  intros Hsep. induction s as [|c s IH]; simpl.
  - destruct sep; [congruence | reflexivity].
  - destruct (startswith sep (c :: s)) eqn:E.
    + destruct sep; [congruence | reflexivity].
    + simpl. rewrite IH, orb_false_r.
      destruct (startswith sep (c :: split0 sep s)) eqn:E'; [|reflexivity].
      destruct (split0_prefix sep s) as (rest & Heq).
      apply (startswith_app_l _ _ rest) in E'. simpl in E'.
      rewrite <- Heq in E'. congruence.
Qed.

Lemma split0_unfold (sep s : str) :
  split0 sep s
  = if startswith sep s then []
    else match s with
         | [] => []
         | c :: r => c :: split0 sep r
         end.
Proof. destruct s; reflexivity. Qed.

(** [split0] cuts where an occurrence of [sep] starts. *)
Lemma split0_first (sep s : str) :
  contains sep s = true -> exists rest, s = split0 sep s ++ sep ++ rest.
Proof.
  induction s as [|c s IH]; rewrite split0_unfold; simpl contains.
  - rewrite orb_false_r. intros H. rewrite H.
    apply startswith_spec in H as (r & Hr). now exists r.
  - destruct (startswith sep (c :: s)) eqn:E.
    + intros _. apply startswith_spec in E as (r & Hr). now exists r.
    + simpl. intros H. destruct (IH H) as (rest & Hrest).
      exists rest. simpl. now f_equal.
Qed.

(** No occurrence of [sep] starts before the cut. *)
Lemma split0_minimal (sep s a b : str) :
  s = a ++ sep ++ b -> (List.length (split0 sep s) <= List.length a)%nat.
Proof.
  revert s. induction a as [|x a IH]; intros s ->; rewrite split0_unfold.
  - assert (startswith sep ([] ++ sep ++ b) = true) as ->
        by (apply startswith_spec; now exists b).
    simpl. lia.
  - destruct (startswith sep ((x :: a) ++ sep ++ b)); simpl; [lia|].
    specialize (IH _ eq_refl). lia.
Qed.

(** * Properties of the filter *)

Lemma dashes_spacefree : spacefree dashes = true.
Proof. reflexivity. Qed.

Lemma dashes_nonempty : dashes <> [].
Proof. discriminate. Qed.

Lemma dashes_head : head_nonspace dashes = true.
Proof. reflexivity. Qed.

Lemma keywords_head (kw : str) :
  In kw ignore_keywords -> head_nonspace kw = true.
Proof.
  assert (H : forallb head_nonspace ignore_keywords = true) by reflexivity.
  rewrite forallb_forall in H. apply H.
Qed.

Lemma any_keyword_in_true (s : str) :
  any_keyword_in s = true <->
  exists kw, In kw ignore_keywords /\ contains kw s = true.
Proof. unfold any_keyword_in. apply existsb_exists. Qed.

Lemma any_keyword_in_mono (a b : str) :
  (forall kw, In kw ignore_keywords ->
              contains kw a = true -> contains kw b = true) ->
  any_keyword_in b = false -> any_keyword_in a = false.
Proof.
  intros Hab Hb. destruct (any_keyword_in a) eqn:Ha; [|reflexivity].
  apply any_keyword_in_true in Ha as (kw & Hin & Hc).
  assert (any_keyword_in b = true) as E
      by (apply any_keyword_in_true; exists kw; auto).
  congruence.
Qed.

Lemma split0_cons (sep : str) (c : char) (r : str) :
  split0 sep (c :: r)
  = if startswith sep (c :: r) then [] else c :: split0 sep r.
Proof. reflexivity. Qed.

(** A line that is not blank and whose trimmed form does not start with
    [--] has something other than white space before its first [--]. *)
Lemma truncation_not_blank (line : str) :
  startswith dashes (strip line) = false ->
  is_empty (strip line) = false ->
  forallb isspace (split0 dashes line) = false.
Proof.
  induction line as [|c r IH]; [discriminate|].
  intros Hstart Hne. rewrite split0_cons.
  destruct (isspace c) eqn:Hc.
  - rewrite strip_space_cons in Hstart, Hne by assumption.
    rewrite (startswith_space dashes c r dashes_head Hc).
    simpl. rewrite Hc. now apply IH.
  - destruct (startswith dashes (c :: r)) eqn:E.
    + exfalso. apply startswith_spec in E as (x & Hx).
      change dashes with [HYPHEN; HYPHEN] in Hx. simpl in Hx.
      injection Hx as -> ->.
      rewrite strip_nonspace_cons, rstrip_nonspace in Hstart
        by apply isspace_HYPHEN.
      discriminate Hstart.
    + simpl. now rewrite Hc.
Qed.

Lemma strip_rstrip (s : str) : strip (rstrip s) = strip s.
Proof. unfold strip. now rewrite rstrip_idempotent. Qed.

(** The loop body in closed form. *)
Lemma clean_line_eq (line : str) :
  clean_line line
  = if passes_filters line then Some (strip_comment line) else None.
Proof.
  unfold clean_line, passes_filters, strip_comment.
  destruct (startswith dashes (strip line) || is_empty (strip line)) eqn:E1;
    [reflexivity|].
  destruct (any_keyword_in (strip line)) eqn:E2; [reflexivity|]. simpl.
  apply orb_false_iff in E1 as [Hs He].
  destruct (contains dashes line) eqn:E3.
  - rewrite strip_rstrip, rstrip_idempotent.
    destruct (is_empty (strip (split0 dashes line))) eqn:E4; [|reflexivity].
    apply is_empty_true, strip_nil_iff in E4.
    rewrite truncation_not_blank in E4 by assumption. discriminate.
  - now rewrite split0_absent.
Qed.

Lemma clean_line_Some (line out : str) :
  clean_line line = Some out <->
  passes_filters line = true /\ out = strip_comment line.
Proof.
  rewrite clean_line_eq. destruct (passes_filters line); split.
  - intros [= <-]. auto.
  - intros [_ ->]. reflexivity.
  - discriminate.
  - intros [[=] _].
Qed.

Lemma clean_line_None (line : str) :
  clean_line line = None <-> passes_filters line = false.
Proof.
  rewrite clean_line_eq. destruct (passes_filters line); split; congruence.
Qed.

(** *** The loop *)

Lemma fold_loop_step (lines acc : list str) :
  fold_left loop_step lines acc = acc ++ fold_left loop_step lines [].
Proof.
  revert acc. induction lines as [|l ls IH]; intros acc; simpl.
  - now rewrite app_nil_r.
  - rewrite (IH (loop_step acc l)), (IH (loop_step [] l)).
    unfold loop_step. destruct (clean_line l); simpl.
    + now rewrite <- app_assoc.
    + reflexivity.
Qed.

Lemma clean_loop_cons (l : str) (ls : list str) :
  clean_loop (l :: ls)
  = match clean_line l with
    | None => clean_loop ls
    | Some x => x :: clean_loop ls
    end.
Proof.
  unfold clean_loop. simpl.
  rewrite fold_loop_step. unfold loop_step.
  destruct (clean_line l); reflexivity.
Qed.

Lemma clean_loop_app (a b : list str) :
  clean_loop (a ++ b) = clean_loop a ++ clean_loop b.
Proof.
  induction a as [|l a IH]; [reflexivity|].
  simpl app. rewrite !clean_loop_cons, IH.
  destruct (clean_line l); reflexivity.
Qed.

Lemma clean_loop_map_filter (lines : list str) :
  clean_loop lines = map strip_comment (filter passes_filters lines).
Proof.
  induction lines as [|l ls IH]; [reflexivity|].
  rewrite clean_loop_cons, clean_line_eq. simpl.
  destruct (passes_filters l); simpl; now rewrite IH.
Qed.

Lemma clean_loop_In (lines : list str) (out : str) :
  In out (clean_loop lines) <->
  exists line, In line lines /\ clean_line line = Some out.
Proof.
  rewrite clean_loop_map_filter, in_map_iff. split.
  - intros (line & <- & Hin). apply filter_In in Hin as [Hin Hp].
    exists line. split; [assumption|]. now apply clean_line_Some.
  - intros (line & Hin & Hc). apply clean_line_Some in Hc as [Hp ->].
    exists line. split; [reflexivity|]. now apply filter_In.
Qed.

Lemma clean_loop_dropped (pre post : list str) (line : str) :
  clean_line line = None ->
  clean_loop (pre ++ line :: post) = clean_loop (pre ++ post).
Proof.
  intros H. rewrite !clean_loop_app, clean_loop_cons, H. reflexivity.
Qed.

(** *** What a kept line looks like *)

Lemma startswith_contains (p s : str) :
  startswith p s = true -> contains p s = true.
Proof. intros H. destruct s; simpl in *; now rewrite H. Qed.

Lemma contains_strip (p s : str) :
  head_nonspace p = true ->
  contains p (strip s) = true -> contains p s = true.
Proof.
  intros Hp H. unfold strip in H. rewrite contains_lstrip in H by assumption.
  destruct (rstrip_decompose s) as (ws & Heq & _).
  rewrite Heq. now apply contains_app_l.
Qed.

Lemma leading_space_app (p q : str) :
  forallb isspace p = false -> leading_space (p ++ q) = leading_space p.
Proof.
  induction p as [|c p IH]; simpl; [discriminate|].
  destruct (isspace c); simpl; [|reflexivity].
  intros H. f_equal. now apply IH.
Qed.

Lemma passes_filters_true (line : str) :
  passes_filters line = true <->
  startswith dashes (strip line) = false
  /\ is_empty (strip line) = false
  /\ any_keyword_in (strip line) = false.
Proof.
  unfold passes_filters.
  rewrite andb_true_iff, !negb_true_iff, orb_false_iff. tauto.
Qed.

Lemma clean_line_output (line out : str) :
  clean_line line = Some out ->
  forallb isspace out = false
  /\ rstrip out = out
  /\ contains dashes out = false
  /\ any_keyword_in out = false
  /\ exists rest, line = out ++ rest.
Proof.
  intros H. apply clean_line_Some in H as [Hp ->].
  apply passes_filters_true in Hp as (Hs & He & Hk).
  unfold strip_comment.
  destruct (split0_prefix dashes line) as (rest & Hline).
  destruct (rstrip_decompose (split0 dashes line)) as (ws & Hsplit & Hws).
  repeat split.
  - rewrite rstrip_isspace. now apply truncation_not_blank.
  - apply rstrip_idempotent.
  - destruct (contains dashes (rstrip (split0 dashes line))) eqn:E;
      [|reflexivity].
    apply (contains_app_l _ _ ws) in E. rewrite <- Hsplit in E.
    rewrite split0_no_sep in E by apply dashes_nonempty. discriminate.
  - apply (any_keyword_in_mono _ (strip line)); [|assumption].
    intros kw Hin Hc. unfold strip.
    rewrite contains_lstrip by now apply keywords_head.
    destruct (rstrip_prefix_mono (split0 dashes line) rest) as (t & Ht).
    rewrite <- Hline in Ht. rewrite Ht. now apply contains_app_l.
  - exists (ws ++ rest). rewrite app_assoc, <- Hsplit. exact Hline.
Qed.

Lemma clean_line_keyword (kw line : str) :
  In kw ignore_keywords -> contains kw (strip line) = true ->
  clean_line line = None.
Proof.
  intros Hin Hc. apply clean_line_None. unfold passes_filters.
  assert (any_keyword_in (strip line) = true) as ->
      by (apply any_keyword_in_true; eauto).
  apply andb_false_r.
Qed.

Lemma clean_line_blank_or_comment (line : str) :
  forallb isspace line = true \/ startswith dashes (strip line) = true ->
  clean_line line = None.
Proof.
  intros H. unfold clean_line. destruct H as [H | H].
  - apply strip_nil_iff in H. rewrite H. reflexivity.
  - rewrite H. reflexivity.
Qed.

(** *** The scenarios of the specification *)

Example scenario_comment :
  clean_loop [lit "  -- this is a comment"] = [].
Proof. reflexivity. Qed.

Example scenario_owner :
  clean_loop [lit "ALTER TABLE foo OWNER TO admin;"] = [].
Proof. reflexivity. Qed.

Example scenario_inline :
  clean_loop [lit "INSERT INTO t VALUES (1); -- seed row"]
  = [lit "INSERT INTO t VALUES (1);"].
Proof. reflexivity. Qed.

Example scenario_plain :
  clean_loop [lit "CREATE TABLE t (id int);"] = [lit "CREATE TABLE t (id int);"].
Proof. reflexivity. Qed.

(** * The claims *)

(** C1.  A line whose trimmed form contains one of the seven ignore
    patterns as a substring never appears in the output: its iteration
    appends nothing, the output is the same as if the line were not in
    the input, and the line is not among the output lines of any input.
    The test is textual, so a pattern inside a quoted SQL value counts. *)
Theorem ignored_line_never_in_output (kw line : str) :
  In kw ignore_keywords ->
  contains kw (strip line) = true ->
  clean_line line = None
  /\ (forall pre post,
        clean_loop (pre ++ line :: post) = clean_loop (pre ++ post))
  /\ (forall lines, ~ In line (clean_loop lines)).
Proof.
  intros Hin Hc.
  assert (Hnone : clean_line line = None) by eauto using clean_line_keyword.
  repeat split.
  - exact Hnone.
  - intros pre post. now apply clean_loop_dropped.
  - intros lines Hout. apply clean_loop_In in Hout as (l & _ & Hl).
    apply clean_line_output in Hl as (_ & _ & _ & Hk & _).
    assert (any_keyword_in line = true) as E.
    { apply any_keyword_in_true. exists kw. split; [assumption|].
      apply contains_strip; auto using keywords_head. }
    congruence.
Qed.

Lemma ignored_line_never_in_output_witness :
  let line := lit "INSERT INTO roles VALUES ('ACL admin');" in
  In (lit "ACL") ignore_keywords
  /\ contains (lit "ACL") (strip line) = true
  /\ clean_line line = None.
Proof.
  split; [right; left; reflexivity|].
  split; [reflexivity|].
  apply (ignored_line_never_in_output (lit "ACL")).
  - right; left; reflexivity.
  - reflexivity.
Defined.

(** C2.  For a line that contains [--], let [pre] be the text before
    the first occurrence of [--]: the line is [pre], [--] and a rest, and
    no occurrence of [--] starts earlier.  If the line is kept by the two
    discarding rules and [pre] holds something other than white space,
    the output line is [pre] with its trailing white space removed: [pre]
    is the output followed by white space only, and the output does not
    end in white space.  If [pre] is empty once trimmed, the line is
    absent from the output. *)
Theorem inline_comment_truncated (line : str) :
  contains dashes line = true ->
  exists pre rest,
    line = pre ++ dashes ++ rest
    /\ (forall a b, line = a ++ dashes ++ b ->
                    (List.length pre <= List.length a)%nat)
    /\ split0 dashes line = pre
    /\ (passes_filters line = true ->
        strip pre <> [] ->
        exists out ws,
          pre = out ++ ws
          /\ forallb isspace ws = true
          /\ (forall t c, out = t ++ [c] -> isspace c = false)
          /\ out = rstrip pre
          /\ clean_line line = Some out
          /\ forall before after,
               clean_loop (before ++ line :: after)
               = clean_loop before ++ out :: clean_loop after)
    /\ (strip pre = [] ->
        clean_line line = None
        /\ forall before after,
             clean_loop (before ++ line :: after)
             = clean_loop (before ++ after)).
Proof.
  intros Hd. destruct (split0_first dashes line Hd) as (rest & Hline).
  exists (split0 dashes line), rest.
  split; [exact Hline|].
  split; [intros a b; apply split0_minimal|].
  split; [reflexivity|]. split.
  - intros Hp _.
    assert (Hc : clean_line line = Some (rstrip (split0 dashes line)))
      by now apply clean_line_Some.
    destruct (rstrip_decompose (split0 dashes line)) as (ws & Hpre & Hws).
    exists (rstrip (split0 dashes line)), ws.
    split; [exact Hpre|]. split; [exact Hws|].
    split; [intros t c Ht; apply (rstrip_fixed_last t);
            rewrite <- Ht; apply rstrip_idempotent|].
    split; [reflexivity|]. split; [exact Hc|].
    intros before after.
    now rewrite clean_loop_app, clean_loop_cons, Hc.
  - intros Hblank. apply strip_nil_iff in Hblank.
    assert (Hc : clean_line line = None).
    { apply clean_line_None. unfold passes_filters.
      destruct (startswith dashes (strip line)) eqn:Hs; [reflexivity|].
      destruct (is_empty (strip line)) eqn:He; [reflexivity|].
      rewrite truncation_not_blank in Hblank by assumption. discriminate. }
    split; [exact Hc|]. intros before after. now apply clean_loop_dropped.
Qed.

Lemma inline_comment_truncated_witness :
  let line := lit "INSERT INTO t VALUES (1); -- seed row" in
  contains dashes line = true
  /\ passes_filters line = true
  /\ line = lit "INSERT INTO t VALUES (1); " ++ dashes ++ lit " seed row"
  /\ clean_line line = Some (lit "INSERT INTO t VALUES (1);").
Proof.
  split; [reflexivity|]. split; [reflexivity|]. split; [reflexivity|].
  destruct (inline_comment_truncated
              (lit "INSERT INTO t VALUES (1); -- seed row") eq_refl)
    as (pre & rest & _ & _ & Hpre & Hkept & _).
  subst pre.
  destruct (Hkept eq_refl ltac:(discriminate))
    as (out & ws & _ & _ & _ & Hout & Hc & _).
  subst out. exact Hc.
Defined.

(** C3.  A line of white space only, or whose trimmed form starts with
    [--], never appears in the output. *)
Theorem blank_or_comment_never_in_output (line : str) :
  forallb isspace line = true \/ startswith dashes (strip line) = true ->
  clean_line line = None
  /\ (forall pre post,
        clean_loop (pre ++ line :: post) = clean_loop (pre ++ post))
  /\ (forall lines, ~ In line (clean_loop lines)).
Proof.
  intros H.
  assert (Hnone : clean_line line = None)
    by now apply clean_line_blank_or_comment.
  repeat split.
  - exact Hnone.
  - intros pre post. now apply clean_loop_dropped.
  - intros lines Hout. apply clean_loop_In in Hout as (l & _ & Hl).
    apply clean_line_output in Hl as (Hsp & _ & Hd & _).
    destruct H as [H | H]; [congruence|].
    apply startswith_contains, contains_strip in H; [|apply dashes_head].
    congruence.
Qed.

Lemma blank_or_comment_never_in_output_witness :
  let line := lit "  -- this is a comment" in
  (forallb isspace line = true \/ startswith dashes (strip line) = true)
  /\ clean_line line = None.
Proof.
  split; [right; reflexivity|].
  apply (blank_or_comment_never_in_output (lit "  -- this is a comment")).
  right; reflexivity.
Defined.

(** C5.  The output is a stable filter-and-transform of the input lines:
    the lines that pass the two discarding rules, in their input order,
    each replaced by its comment-stripped text.  Nothing is reordered and
    equal lines are not merged; cleaning a concatenation is concatenating
    the cleanings. *)
Theorem clean_loop_stable (lines more : list str) :
  clean_loop lines = map strip_comment (filter passes_filters lines)
  /\ clean_loop (lines ++ more) = clean_loop lines ++ clean_loop more
  /\ clean_loop (lines ++ lines) = clean_loop lines ++ clean_loop lines.
Proof.
  split; [apply clean_loop_map_filter|].
  split; apply clean_loop_app.
Qed.

(** C7.  The ignore-pattern rule looks at the whole trimmed line, before
    any inline comment is removed: a line that contains an ignore pattern
    only at or after its first [--] is discarded as a whole, not kept with
    the comment stripped. *)
Theorem keyword_in_comment_discards_line (kw line : str) :
  In kw ignore_keywords ->
  contains dashes line = true ->
  contains kw (split0 dashes line) = false ->
  contains kw (strip line) = true ->
  clean_line line = None
  /\ clean_line line <> Some (strip_comment line)
  /\ forall pre post,
       clean_loop (pre ++ line :: post) = clean_loop (pre ++ post).
Proof.
  intros Hin _ _ Hc.
  assert (Hnone : clean_line line = None) by eauto using clean_line_keyword.
  repeat split.
  - exact Hnone.
  - rewrite Hnone. discriminate.
  - intros pre post. now apply clean_loop_dropped.
Qed.

Lemma keyword_in_comment_discards_line_witness :
  let kw := lit "OWNER TO" in
  let line := lit "CREATE TABLE t (id int); -- OWNER TO admin" in
  In kw ignore_keywords
  /\ contains dashes line = true
  /\ contains kw (split0 dashes line) = false
  /\ contains kw (strip line) = true
  /\ clean_line line = None.
Proof.
  split; [left; reflexivity|].
  split; [reflexivity|]. split; [reflexivity|]. split; [reflexivity|].
  apply (keyword_in_comment_discards_line (lit "OWNER TO")).
  - left; reflexivity.
  - reflexivity.
  - reflexivity.
  - reflexivity.
Defined.

(** C9.  Every line of the cleaned output is non-empty, is not white
    space only, does not end in white space, keeps the leading white
    space of the input line it comes from, contains no [--] and contains
    none of the seven ignore patterns. *)
Theorem output_line_invariant (lines : list str) (out : str) :
  In out (clean_loop lines) ->
  out <> []
  /\ forallb isspace out = false
  /\ (forall t c, out = t ++ [c] -> isspace c = false)
  /\ (exists line rest,
        In line lines /\ line = out ++ rest
        /\ leading_space out = leading_space line)
  /\ contains dashes out = false
  /\ (forall kw, In kw ignore_keywords -> contains kw out = false).
Proof.
  intros Hout. apply clean_loop_In in Hout as (line & Hin & Hl).
  apply clean_line_output in Hl as (Hsp & Hr & Hd & Hk & rest & Hline).
  repeat split.
  - intros ->. discriminate.
  - exact Hsp.
  - intros t c ->. now apply (rstrip_fixed_last t).
  - exists line, rest. repeat split; [assumption..|].
    rewrite Hline. symmetry. now apply leading_space_app.
  - exact Hd.
  - intros kw Hkw. destruct (contains kw out) eqn:E; [|reflexivity].
    assert (any_keyword_in out = true)
      by (apply any_keyword_in_true; eauto).
    congruence.
Qed.

Lemma output_line_invariant_witness :
  let lines := [lit "-- header"; lit "  SELECT 1;   -- one"; lit ""] in
  let out := lit "  SELECT 1;" in
  In out (clean_loop lines)
  /\ out <> []
  /\ contains dashes out = false.
Proof.
  assert (H : In (lit "  SELECT 1;")
                 (clean_loop [lit "-- header"; lit "  SELECT 1;   -- one";
                              lit ""]))
    by (left; reflexivity).
  split; [exact H|].
  pose proof (output_line_invariant _ _ H) as (Hne & _ & _ & _ & Hd & _).
  split; assumption.
Defined.

(** C10.  The discard after truncation cannot fire: a line that passes
    the blank/comment-start rule and contains [--] has something other
    than white space before its first [--], so the truncated line is not
    empty once trimmed. *)
Theorem truncation_discard_unreachable (line : str) :
  strip line <> [] ->
  startswith dashes (strip line) = false ->
  contains dashes line = true ->
  forallb isspace (split0 dashes line) = false
  /\ is_empty (strip (rstrip (split0 dashes line))) = false.
Proof.
  intros Hne Hs _. apply is_empty_false in Hne.
  assert (H : forallb isspace (split0 dashes line) = false)
    by now apply truncation_not_blank.
  split; [exact H|].
  rewrite strip_rstrip. apply is_empty_false. intros E.
  apply strip_nil_iff in E. congruence.
Qed.

Lemma truncation_discard_unreachable_witness :
  let line := lit " x-- y" in
  strip line <> []
  /\ startswith dashes (strip line) = false
  /\ contains dashes line = true
  /\ forallb isspace (split0 dashes line) = false.
Proof.
  split; [discriminate|]. split; [reflexivity|]. split; [reflexivity|].
  apply (truncation_discard_unreachable (lit " x-- y")).
  - discriminate.
  - reflexivity.
  - reflexivity.
Defined.

(** * Reading lines and joining them *)

Lemma translate_no_CR (pendingcr : bool) (s : str) :
  no_CR (translate_newlines pendingcr s) = true.
Proof.
  revert pendingcr. induction s as [|c r IH]; intros b; [reflexivity|].
  simpl. destruct (c =? CR) eqn:Hc.
  - simpl. apply IH.
  - destruct ((c =? LF) && b); [apply IH|].
    simpl. rewrite Hc. apply IH.
Qed.

Lemma translate_id (s : str) :
  no_CR s = true -> translate_newlines false s = s.
Proof.
  induction s as [|c r IH]; [reflexivity|]. simpl.
  rewrite andb_true_iff, negb_true_iff. intros [-> Hr].
  rewrite andb_false_r. f_equal. now apply IH.
Qed.

Lemma singleline_no_CR (s : str) : singleline s = true -> no_CR s = true.
Proof.
  unfold singleline, no_CR, is_newline. rewrite !forallb_forall.
  intros H c Hc. specialize (H c Hc).
  rewrite negb_true_iff in *. now apply orb_false_iff in H as [_ H].
Qed.

Lemma singleline_app (a b : str) :
  singleline (a ++ b) = singleline a && singleline b.
Proof. apply forallb_app. Qed.

Lemma lines_keepends_read (s : str) :
  no_CR s = true -> Forall read_line (lines_keepends s).
Proof.
  induction s as [|c r IH]; [constructor|]. simpl.
  rewrite andb_true_iff, negb_true_iff. intros [Hc Hr].
  specialize (IH Hr). destruct (c =? LF) eqn:Hlf.
  - constructor; [|assumption]. exists []. split; [reflexivity|].
    right. apply N.eqb_eq in Hlf. now subst c.
  - assert (Hone : negb (is_newline c) = true)
      by (unfold is_newline; now rewrite Hlf, Hc).
    destruct (lines_keepends r) as [|l ls].
    + constructor; [|constructor]. exists [c]. split; [|now left].
      simpl. now rewrite Hone.
    + inversion IH as [|? ? (body & Hb & Hl) Hls]; subst.
      constructor; [|assumption]. exists (c :: body). split.
      * simpl. now rewrite Hone, Hb.
      * destruct Hl as [-> | ->]; [now left | now right].
Qed.

Lemma readlines_read (content : str) : Forall read_line (readlines content).
Proof. apply lines_keepends_read, translate_no_CR. Qed.

Lemma singleline_prefix (a b : str) :
  singleline (a ++ b) = true -> singleline a = true.
Proof. rewrite singleline_app, andb_true_iff. tauto. Qed.

Lemma clean_line_singleline (line out : str) :
  read_line line -> clean_line line = Some out -> singleline out = true.
Proof.
  intros (body & Hb & Hl) Hc.
  apply clean_line_output in Hc as (Hsp & Hr & _ & _ & rest & Hline).
  destruct Hl as [-> | ->].
  - rewrite Hline in Hb. now apply singleline_prefix in Hb.
  - destruct (exists_last (l := rest)) as (rest' & x & ->).
    + intros ->. rewrite app_nil_r in Hline. subst out.
      apply rstrip_fixed_last in Hr. rewrite isspace_LF in Hr. discriminate.
    + rewrite app_assoc in Hline. apply app_inj_tail in Hline as [-> _].
      now apply singleline_prefix in Hb.
Qed.

Lemma clean_loop_singleline (lines : list str) :
  Forall read_line lines ->
  Forall (fun out => singleline out = true) (clean_loop lines).
Proof.
  intros H. apply Forall_forall. intros out Hout.
  apply clean_loop_In in Hout as (line & Hin & Hc).
  rewrite Forall_forall in H. eauto using clean_line_singleline.
Qed.

Lemma singleline_not_LF (c : char) (s : str) :
  singleline (c :: s) = true -> (c =? LF) = false /\ singleline s = true.
Proof.
  simpl. rewrite andb_true_iff, negb_true_iff. unfold is_newline.
  rewrite orb_false_iff. tauto.
Qed.

Lemma lines_keepends_terminated (body rest : str) :
  singleline body = true ->
  lines_keepends (body ++ LF :: rest) = (body ++ [LF]) :: lines_keepends rest.
Proof.
  induction body as [|c b IH]; [reflexivity|].
  intros H. apply singleline_not_LF in H as [Hc Hb].
  simpl. rewrite Hc, IH by assumption. reflexivity.
Qed.

Lemma lines_keepends_last (body : str) :
  singleline body = true -> body <> [] -> lines_keepends body = [body].
Proof.
  induction body as [|c b IH]; [congruence|].
  intros H _. apply singleline_not_LF in H as [Hc Hb].
  simpl. rewrite Hc. destruct b as [|d b]; [reflexivity|].
  rewrite IH by (assumption || discriminate). reflexivity.
Qed.

Lemma join_cons2 (sep p q : str) (rest : list str) :
  join sep (p :: q :: rest) = p ++ sep ++ join sep (q :: rest).
Proof. reflexivity. Qed.

Lemma with_newlines_cons2 (p q : str) (rest : list str) :
  with_newlines (p :: q :: rest) = (p ++ [LF]) :: with_newlines (q :: rest).
Proof. reflexivity. Qed.

Lemma no_CR_app (a b : str) : no_CR (a ++ b) = no_CR a && no_CR b.
Proof. apply forallb_app. Qed.

Lemma join_singleline_no_CR (parts : list str) :
  Forall line_text parts -> no_CR (join [LF] parts) = true.
Proof.
  induction parts as [|p [|q rest] IH]; intros H; [reflexivity| |].
  - inversion H as [|? ? [_ Hp] _]; subst. now apply singleline_no_CR.
  - inversion H as [|? ? [_ Hp] Hrest]; subst.
    rewrite join_cons2, !no_CR_app.
    rewrite (singleline_no_CR p Hp), (IH Hrest). reflexivity.
Qed.

Lemma lines_keepends_join (parts : list str) :
  Forall line_text parts ->
  lines_keepends (join [LF] parts) = with_newlines parts.
Proof.
  induction parts as [|p [|q rest] IH]; intros H; [reflexivity| |].
  - inversion H as [|? ? [Hne Hp] _]; subst. now apply lines_keepends_last.
  - inversion H as [|? ? [_ Hp] Hrest]; subst.
    rewrite join_cons2, with_newlines_cons2.
    change (p ++ [LF] ++ join [LF] (q :: rest))
      with (p ++ LF :: join [LF] (q :: rest)).
    rewrite lines_keepends_terminated by assumption.
    now rewrite IH.
Qed.

(** Reading back a file written as [parts] joined by LF. *)
Lemma readlines_join (parts : list str) :
  Forall line_text parts ->
  readlines (join [LF] parts) = with_newlines parts.
Proof.
  intros H. unfold readlines, universal_newlines.
  rewrite translate_id by now apply join_singleline_no_CR.
  now apply lines_keepends_join.
Qed.

Lemma join_concat (parts : list str) :
  join [LF] parts = List.concat (with_newlines parts).
Proof.
  induction parts as [|p [|q rest] IH]; [reflexivity| |].
  - simpl. now rewrite app_nil_r.
  - rewrite join_cons2, with_newlines_cons2, IH. simpl.
    now rewrite <- app_assoc.
Qed.

Lemma count_LF_app (a b : str) : count_LF (a ++ b) = (count_LF a + count_LF b)%nat.
Proof. apply count_occ_app. Qed.

Lemma count_LF_singleline (s : str) :
  singleline s = true -> count_LF s = 0%nat.
Proof.
  induction s as [|c s IH]; [reflexivity|].
  intros H. apply singleline_not_LF in H as [Hc Hs].
  unfold count_LF in *. simpl.
  destruct (N.eq_dec c LF) as [->|]; [discriminate|]. now apply IH.
Qed.

Lemma count_LF_join (parts : list str) :
  Forall line_text parts ->
  count_LF (join [LF] parts) = pred (List.length parts).
Proof.
  induction parts as [|p [|q rest] IH]; intros H; [reflexivity| |].
  - inversion H as [|? ? [_ Hp] _]; subst. now apply count_LF_singleline.
  - inversion H as [|? ? [_ Hp] Hrest]; subst.
    rewrite join_cons2, !count_LF_app, (IH Hrest), (count_LF_singleline p Hp).
    reflexivity.
Qed.

Lemma join_ends_with_last (sep : str) (parts : list str) (p : str) :
  exists pre, join sep (parts ++ [p]) = pre ++ p.
Proof.
  induction parts as [|a parts (pre & IH)]; [now exists []|].
  simpl app. destruct (parts ++ [p]) as [|b more] eqn:E.
  - now destruct parts.
  - rewrite join_cons2, IH. exists (a ++ sep ++ pre).
    now rewrite <- !app_assoc.
Qed.

(** The text ends with the last part, so not with an LF. *)
Lemma join_no_trailing_LF (parts : list str) (t : str) :
  Forall (fun p => rstrip p = p) parts ->
  Forall line_text parts ->
  join [LF] parts <> t ++ [LF].
Proof.
  intros Hr Ht. destruct parts as [|a parts'].
  - simpl. now destruct t.
  - assert (Hne : a :: parts' <> []) by discriminate.
    destruct (exists_last Hne) as (ps & p & E). rewrite E in *. clear E Hne.
    destruct (join_ends_with_last [LF] ps p) as (pre & ->).
    apply Forall_app in Hr as [_ Hp], Ht as [_ Hp'].
    inversion Hp as [|? ? Hfix _]; inversion Hp' as [|? ? [Hpne _] _]; subst.
    destruct (exists_last Hpne) as (p' & c & ->).
    rewrite app_assoc. intros Heq. apply app_inj_tail in Heq as [_ ->].
    apply rstrip_fixed_last in Hfix. rewrite isspace_LF in Hfix. discriminate.
Qed.

(** * Cleaning what is clean already *)

(** An output line, with or without white space after it, is kept as it
    is by the filter. *)
Lemma clean_line_fixed (out ws : str) :
  forallb isspace out = false ->
  rstrip out = out ->
  contains dashes out = false ->
  any_keyword_in out = false ->
  forallb isspace ws = true ->
  clean_line (out ++ ws) = Some out.
Proof.
  intros Hsp Hr Hd Hk Hws. apply clean_line_Some.
  assert (Hstrip : strip (out ++ ws) = lstrip out)
    by (rewrite strip_app_space by assumption; unfold strip; now rewrite Hr).
  split.
  - apply passes_filters_true. rewrite Hstrip. repeat split.
    + destruct (startswith dashes (lstrip out)) eqn:E; [|reflexivity].
      apply startswith_contains in E.
      rewrite contains_lstrip in E by apply dashes_head. congruence.
    + apply is_empty_false. intros E.
      assert (strip out = []) as E' by (unfold strip; now rewrite Hr).
      apply strip_nil_iff in E'. congruence.
    + apply (any_keyword_in_mono _ out); [|assumption].
      intros kw Hin Hc. now rewrite contains_lstrip in Hc by now apply keywords_head.
  - unfold strip_comment. rewrite split0_absent.
    + now rewrite rstrip_app_space.
    + rewrite contains_app_space;
        auto using dashes_spacefree, dashes_nonempty.
Qed.

Lemma clean_loop_output (lines : list str) :
  Forall clean_output (clean_loop lines).
Proof.
  apply Forall_forall. intros out Hout.
  apply clean_loop_In in Hout as (line & _ & Hc).
  apply clean_line_output in Hc. unfold clean_output. tauto.
Qed.

Lemma clean_loop_with_newlines (outs : list str) :
  Forall clean_output outs -> clean_loop (with_newlines outs) = outs.
Proof.
  induction outs as [|o [|q rest] IH]; intros H; [reflexivity| |];
    inversion H as [|? ? (Hsp & Hr & Hd & Hk) Hrest]; subst.
  - simpl with_newlines. rewrite clean_loop_cons.
    rewrite <- (app_nil_r o) at 1.
    now rewrite clean_line_fixed.
  - rewrite with_newlines_cons2, clean_loop_cons.
    rewrite clean_line_fixed by (assumption || reflexivity).
    now rewrite IH.
Qed.

Lemma clean_output_nonempty (out : str) : clean_output out -> out <> [].
Proof. intros (H & _) ->. discriminate. Qed.

Lemma cleaned_line_text (content : str) :
  Forall line_text (clean_loop (readlines content)).
Proof.
  pose proof (clean_loop_output (readlines content)) as Ho.
  pose proof (clean_loop_singleline _ (readlines_read content)) as Hs.
  rewrite Forall_forall in *. intros out Hin. split.
  - apply clean_output_nonempty. now apply Ho.
  - now apply Hs.
Qed.

(** C6.  Cleaning is idempotent: cleaning the cleaned text gives the same
    text, character for character, and the second pass keeps every line
    of the first as it is. *)
Theorem clean_text_idempotent (content : str) :
  clean_text (clean_text content) = clean_text content
  /\ clean_loop (readlines (clean_text content))
     = clean_loop (readlines content).
Proof.
  assert (H : clean_loop (readlines (clean_text content))
              = clean_loop (readlines content)).
  { unfold clean_text.
    rewrite readlines_join by apply cleaned_line_text.
    apply clean_loop_with_newlines, clean_loop_output. }
  split; [|exact H]. unfold clean_text at 1. now rewrite H.
Qed.

(** * The file-level function *)

Lemma files_Some (w : world) (p : path) (content : str) :
  files w p = Some content <-> disk w p = Some (Text content).
Proof.
  unfold files. destruct (disk w p) as [[c|]|]; split; congruence.
Qed.

Lemma writable_true (w : world) (p : path) :
  writable w p = true <-> access w p = Accepts.
Proof.
  unfold writable. destruct (access w p); split; congruence.
Qed.

(** Every run of [clean_sql], by what the input holds and what writing
    the output meets. *)
Lemma clean_sql_spec (w : world) (input_file output_file : path) :
  let r := fst (clean_sql input_file output_file w) in
  let w' := snd (clean_sql input_file output_file w) in
  access w' = access w
  /\ match disk w input_file with
     | None =>
         r = Raise (CannotOpenForReading input_file)
         /\ disk w' = disk w
         /\ opens w' = opens w ++ [(ForReading, input_file)]
         /\ stdout w' = stdout w ++ [start_message input_file output_file]
     | Some Garbled =>
         r = Raise (UnicodeDecodeError input_file)
         /\ disk w' = disk w
         /\ opens w' = opens w ++ [(ForReading, input_file)]
         /\ stdout w' = stdout w ++ [start_message input_file output_file]
     | Some (Text content) =>
         opens w'
         = opens w ++ [(ForReading, input_file); (ForWriting, output_file)]
         /\ match access w output_file with
            | Refuses =>
                r = Raise (CannotOpenForWriting output_file)
                /\ disk w' = disk w
                /\ stdout w'
                   = stdout w ++ [start_message input_file output_file]
            | Breaks remains =>
                r = Raise (WriteFailed output_file)
                /\ (forall q, disk w' q
                              = if String.eqb q output_file then Some remains
                                else disk w q)
                /\ stdout w'
                   = stdout w ++ [start_message input_file output_file]
            | Accepts =>
                r = Ok tt
                /\ (forall q, disk w' q
                              = if String.eqb q output_file
                                then Some (Text (clean_text content))
                                else disk w q)
                /\ stdout w'
                   = stdout w ++ [start_message input_file output_file;
                                  done_message output_file]
            end
     end.
Proof.
  unfold clean_sql, bind, print, open_for_reading, f_readlines,
    open_for_writing, f_write, ret, raise, store, opened,
    start_message, done_message, clean_text.
  cbn. destruct (disk w input_file) as [[content|]|]; cbn; auto.
  destruct (access w output_file) as [|remains|] eqn:E;
    cbn; rewrite ?E; cbn; rewrite <- ?app_assoc; repeat split;
    try (intros q; now destruct (String.eqb q output_file)).
Qed.

Lemma clean_sql_ok (w : world) (input_file output_file : path)
      (content : str) :
  files w input_file = Some content ->
  writable w output_file = true ->
  fst (clean_sql input_file output_file w) = Ok tt.
Proof.
  rewrite files_Some, writable_true. intros Hin Hout.
  pose proof (clean_sql_spec w input_file output_file) as (_ & H).
  rewrite Hin, Hout in H. tauto.
Qed.

Lemma clean_sql_written (w : world) (input_file output_file : path)
      (content : str) :
  files w input_file = Some content ->
  writable w output_file = true ->
  files (snd (clean_sql input_file output_file w)) output_file
  = Some (clean_text content).
Proof.
  rewrite files_Some, writable_true. intros Hin Hout.
  pose proof (clean_sql_spec w input_file output_file) as (_ & H).
  rewrite Hin, Hout in H. destruct H as (_ & _ & H & _).
  apply files_Some. rewrite H. now rewrite String.eqb_refl.
Qed.

(** C4.  What [clean_sql] writes is the surviving lines joined by LF:
    exactly one LF after every line but the last, none after the last,
    as many LF characters as there are lines less one; reading the file
    back gives the surviving lines; an empty input gives an empty file. *)
Theorem output_joined_by_newlines
        (w : world) (input_file output_file : path) (content : str) :
  files w input_file = Some content ->
  writable w output_file = true ->
  let cleaned := clean_loop (readlines content) in
  let written := join [LF] cleaned in
  files (snd (clean_sql input_file output_file w)) output_file = Some written
  /\ written = List.concat (with_newlines cleaned)
  /\ readlines written = with_newlines cleaned
  /\ count_LF written = pred (List.length cleaned)
  /\ (forall t, written <> t ++ [LF])
  /\ (content = [] -> written = []).
Proof.
  intros Hin Hout cleaned written.
  pose proof (cleaned_line_text content) as Htext.
  pose proof (clean_loop_output (readlines content)) as Hclean.
  repeat split.
  - now apply clean_sql_written.
  - apply join_concat.
  - now apply readlines_join.
  - now apply count_LF_join.
  - intros t. apply join_no_trailing_LF; [|assumption].
    eapply Forall_impl; [|exact Hclean]. intros out (_ & Hr & _). exact Hr.
  - intros ->. reflexivity.
Qed.

Example sample_run :
  files (snd (clean_sql "dump.sql"%string "dump_cleaned.sql"%string sample_world))
        "dump_cleaned.sql"%string
  = Some (lit "CREATE TABLE t (id int);" ++ [LF]
          ++ lit "  INSERT INTO t VALUES (1);").
Proof. reflexivity. Qed.

Lemma output_joined_by_newlines_witness :
  exists content,
    files sample_world "dump.sql"%string = Some content
    /\ writable sample_world "dump_cleaned.sql"%string = true
    /\ count_LF (join [LF] (clean_loop (readlines content))) = 1%nat.
Proof.
  eexists. split; [reflexivity|]. split; [reflexivity|].
  pose proof (output_joined_by_newlines
                sample_world "dump.sql"%string "dump_cleaned.sql"%string _
                eq_refl eq_refl) as (_ & _ & _ & H & _).
  exact H.
Defined.




(** * Further properties of the filter *)

Lemma strip_skip_space (ws s : str) :
  forallb isspace ws = true -> strip (ws ++ s) = strip s.
Proof.
  induction ws as [|w ws IH]; simpl; [reflexivity|].
  rewrite andb_true_iff. intros [Hw Hws].
  change (w :: ws ++ s) with (w :: (ws ++ s)).
  rewrite strip_space_cons by assumption. now apply IH.
Qed.

Lemma split0_skip_space (sep ws s : str) :
  head_nonspace sep = true -> forallb isspace ws = true ->
  split0 sep (ws ++ s) = ws ++ split0 sep s.
Proof.
  intros Hsep. induction ws as [|w ws IH]; simpl forallb; [reflexivity|].
  rewrite andb_true_iff. intros [Hw Hws].
  change ((w :: ws) ++ s) with (w :: (ws ++ s)).
  rewrite split0_cons, startswith_space by assumption.
  rewrite IH by assumption. reflexivity.
Qed.

Lemma split0_app_space (sep s ws : str) :
  spacefree sep = true -> sep <> [] -> forallb isspace ws = true ->
  split0 sep (s ++ ws) = if contains sep s then split0 sep s else s ++ ws.
Proof.
  intros Hsep Hne Hws. induction s as [|c s IH].
  - assert (E : contains sep [] = false)
      by (destruct sep; [congruence | reflexivity]).
    rewrite E. simpl app. apply split0_absent.
    rewrite <- (app_nil_r ws).
    rewrite contains_skip_space by (auto using spacefree_head). exact E.
  - change ((c :: s) ++ ws) with (c :: (s ++ ws)).
    rewrite !split0_cons, IH.
    change (c :: (s ++ ws)) with ((c :: s) ++ ws).
    rewrite startswith_app_space by assumption.
    simpl contains. destruct (startswith sep (c :: s)); simpl; [reflexivity|].
    destruct (contains sep s); reflexivity.
Qed.

Lemma rstrip_app_nonblank (a t : str) :
  forallb isspace t = false -> rstrip (a ++ t) = a ++ rstrip t.
Proof.
  intros Ht. induction a as [|c a IH]; [reflexivity|].
  change ((c :: a) ++ t) with (c :: (a ++ t)).
  rewrite rstrip_cons, IH.
  assert (Hne : is_empty (a ++ rstrip t) = false).
  { apply is_empty_false. intros E. apply app_eq_nil in E as [_ E].
    apply rstrip_nil_iff in E. congruence. }
  rewrite Hne, andb_false_r. reflexivity.
Qed.

Lemma passes_filters_app_space (line ws : str) :
  forallb isspace ws = true ->
  passes_filters (line ++ ws) = passes_filters line.
Proof.
  intros H. unfold passes_filters. now rewrite strip_app_space.
Qed.

Lemma strip_comment_app_space (line ws : str) :
  forallb isspace ws = true ->
  strip_comment (line ++ ws) = strip_comment line.
Proof.
  intros H. unfold strip_comment.
  rewrite split0_app_space
    by auto using dashes_spacefree, dashes_nonempty.
  destruct (contains dashes line) eqn:E; [reflexivity|].
  rewrite split0_absent by assumption. now apply rstrip_app_space.
Qed.

(** X1.  A line that is not blank, contains no [--] and contains none of
    the ignore patterns is output with its trailing white space removed
    and nothing else changed; if it has no trailing white space it is
    output as it is. *)
Theorem plain_line_kept_rstripped (line : str) :
  forallb isspace line = false ->
  contains dashes line = false ->
  any_keyword_in line = false ->
  clean_line line = Some (rstrip line)
  /\ (rstrip line = line -> clean_loop [line] = [line]).
Proof.
  intros Hsp Hd Hk.
  assert (Hc : clean_line line = Some (rstrip line)).
  { apply clean_line_Some. split.
    - apply passes_filters_true. repeat split.
      + destruct (startswith dashes (strip line)) eqn:E; [|reflexivity].
        apply startswith_contains, contains_strip in E; [|apply dashes_head].
        congruence.
      + apply is_empty_false. intros E. apply strip_nil_iff in E. congruence.
      + apply (any_keyword_in_mono _ line); [|assumption].
        intros kw Hin. apply contains_strip. now apply keywords_head.
    - unfold strip_comment. now rewrite split0_absent. }
  split; [exact Hc|]. intros Hr.
  rewrite clean_loop_cons, Hc, Hr. reflexivity.
Qed.

Lemma plain_line_kept_rstripped_witness :
  let line := lit "  CREATE TABLE t (id int);   " in
  forallb isspace line = false
  /\ contains dashes line = false
  /\ any_keyword_in line = false
  /\ clean_line line = Some (lit "  CREATE TABLE t (id int);").
Proof.
  split; [reflexivity|]. split; [reflexivity|]. split; [reflexivity|].
  apply (plain_line_kept_rstripped (lit "  CREATE TABLE t (id int);   "));
    reflexivity.
Defined.

(** X2.  White space at the end of an input line, its line terminator
    included, has no influence on what the line contributes. *)
Theorem trailing_space_irrelevant (line ws : str) :
  forallb isspace ws = true ->
  clean_line (line ++ ws) = clean_line line.
Proof.
  intros H.
  now rewrite !clean_line_eq, passes_filters_app_space,
    strip_comment_app_space.
Qed.

Lemma trailing_space_irrelevant_witness :
  let line := lit "SELECT 1; -- one" in
  let ws := lit "  " ++ [CR; LF] in
  forallb isspace ws = true
  /\ clean_line (line ++ ws) = clean_line line.
Proof.
  split; [reflexivity|].
  apply (trailing_space_irrelevant (lit "SELECT 1; -- one")).
  reflexivity.
Defined.

(** X3.  Indentation neither decides whether a line is kept nor is it
    touched: a line with more leading white space contributes the same
    text with that white space in front. *)
Theorem indentation_preserved (ws line : str) :
  forallb isspace ws = true ->
  clean_line (ws ++ line) = option_map (app ws) (clean_line line).
Proof.
  intros H. rewrite !clean_line_eq.
  assert (Hp : passes_filters (ws ++ line) = passes_filters line)
    by (unfold passes_filters; now rewrite strip_skip_space).
  rewrite Hp. destruct (passes_filters line) eqn:E; [|reflexivity].
  apply passes_filters_true in E as (Hs & He & _).
  simpl. f_equal. unfold strip_comment.
  rewrite split0_skip_space by (assumption || apply dashes_head).
  apply rstrip_app_nonblank. now apply truncation_not_blank.
Qed.

Lemma indentation_preserved_witness :
  let ws := lit "    " in
  let line := lit "id int, -- key" in
  forallb isspace ws = true
  /\ clean_line (ws ++ line) = Some (ws ++ lit "id int,").
Proof.
  split; [reflexivity|].
  apply (indentation_preserved (lit "    ") (lit "id int, -- key")).
  reflexivity.
Defined.

Lemma clean_loop_fixed (outs : list str) :
  Forall clean_output outs -> clean_loop outs = outs.
Proof.
  induction outs as [|o outs IH]; intros H; [reflexivity|].
  inversion H as [|? ? (Hsp & Hr & Hd & Hk) Hrest]; subst.
  rewrite clean_loop_cons. rewrite <- (app_nil_r o) at 1.
  rewrite clean_line_fixed by (assumption || reflexivity).
  now rewrite IH.
Qed.

(** X6.  The loop is idempotent on any list of lines, read from a file
    or not: its output lines are all kept, unchanged, by a second pass. *)
Theorem clean_loop_idempotent (lines : list str) :
  clean_loop (clean_loop lines) = clean_loop lines.
Proof. apply clean_loop_fixed, clean_loop_output. Qed.

(** * Size and line endings *)

Lemma translate_length (pendingcr : bool) (s : str) :
  (List.length (translate_newlines pendingcr s) <= List.length s)%nat.
Proof.
  revert pendingcr. induction s as [|c r IH]; intros b; simpl; [lia|].
  destruct (c =? CR); simpl; [specialize (IH true); lia|].
  destruct ((c =? LF) && b); simpl.
  - specialize (IH false). lia.
  - specialize (IH false). lia.
Qed.

Lemma lines_keepends_nil (s : str) : lines_keepends s = [] -> s = [].
Proof.
  destruct s as [|c r]; [reflexivity|]. simpl.
  destruct (c =? LF); [discriminate|].
  destruct (lines_keepends r); discriminate.
Qed.

Lemma lines_keepends_concat (s : str) : List.concat (lines_keepends s) = s.
Proof.
  induction s as [|c r IH]; [reflexivity|]. simpl.
  destruct (c =? LF); [simpl; now rewrite IH|].
  destruct (lines_keepends r) as [|l ls] eqn:E.
  - apply lines_keepends_nil in E. now subst r.
  - simpl in *. now rewrite IH.
Qed.

Lemma lines_keepends_shape (s : str) : file_lines (lines_keepends s).
Proof.
  induction s as [|c r IH]; [exact I|]. simpl.
  destruct (c =? LF) eqn:Hc.
  - apply N.eqb_eq in Hc. subst c. split; [|exact IH].
    right. now exists [].
  - destruct (lines_keepends r) as [|l ls]; [split; [now left | exact I]|].
    destruct IH as [[-> | (body & ->)] Hls]; (split; [|exact Hls]).
    + now left.
    + right. now exists (c :: body).
Qed.

Lemma join_length_cons (o : str) (rest : list str) :
  List.length (join [LF] (o :: rest))
  = (List.length o
     + match rest with
       | [] => 0
       | _ :: _ => 1 + List.length (join [LF] rest)
       end)%nat.
Proof.
  destruct rest as [|q rest]; [simpl; lia|].
  rewrite join_cons2, !length_app. reflexivity.
Qed.

Lemma join_clean_length (lines : list str) :
  file_lines lines ->
  (List.length (join [LF] (clean_loop lines))
   <= List.length (List.concat lines))%nat.
Proof.
  induction lines as [|l rest IH]; [simpl; lia|].
  intros [Hl Hrest]. specialize (IH Hrest).
  rewrite clean_loop_cons. simpl List.concat. rewrite length_app.
  destruct (clean_line l) as [out|] eqn:Hc; [|lia].
  apply clean_line_output in Hc as (_ & Hr & _ & _ & tl & Hline).
  rewrite join_length_cons.
  assert (Hlen : (List.length out <= List.length l)%nat)
    by (rewrite Hline, length_app; lia).
  destruct (clean_loop rest) as [|q qs] eqn:E; [lia|].
  assert (Hlt : (List.length out < List.length l)%nat).
  { destruct Hl as [-> | (body & Hbody)]; [discriminate|].
    destruct tl as [|x tl']; [|rewrite Hline, length_app; simpl; lia].
    exfalso. rewrite app_nil_r in Hline. subst l. subst out.
    apply rstrip_fixed_last in Hr. rewrite isspace_LF in Hr. discriminate. }
  lia.
Qed.

(** X4.  Cleaning never makes a file longer, and never yields more lines
    than it read. *)
Theorem clean_text_no_longer (content : str) :
  (List.length (clean_text content) <= List.length content)%nat
  /\ (List.length (clean_loop (readlines content))
      <= List.length (readlines content))%nat.
Proof.
  split.
  - unfold clean_text, readlines, universal_newlines.
    pose proof (join_clean_length _
                  (lines_keepends_shape (translate_newlines false content))).
    rewrite lines_keepends_concat in H.
    pose proof (translate_length false content). lia.
  - rewrite clean_loop_map_filter, length_map. apply filter_length_le.
Qed.

Lemma translate_singleline (pendingcr : bool) (p rest : str) :
  singleline p = true ->
  translate_newlines pendingcr (p ++ CR :: rest)
  = p ++ LF :: translate_newlines true rest.
Proof.
  revert pendingcr. induction p as [|c p IH]; intros b H; [reflexivity|].
  apply andb_true_iff in H as [Hc Hp].
  unfold is_newline in Hc. apply negb_true_iff, orb_false_iff in Hc as [Hlf Hcr].
  simpl. rewrite Hcr, Hlf. simpl. now rewrite IH.
Qed.

Lemma translate_singleline_end (pendingcr : bool) (p : str) :
  singleline p = true -> translate_newlines pendingcr p = p.
Proof.
  revert pendingcr. induction p as [|c p IH]; intros b H; [reflexivity|].
  apply andb_true_iff in H as [Hc Hp].
  unfold is_newline in Hc. apply negb_true_iff, orb_false_iff in Hc as [Hlf Hcr].
  simpl. rewrite Hcr, Hlf. simpl. now rewrite IH.
Qed.

Lemma translate_join_CR (pendingcr : bool) (parts : list str) :
  Forall (fun p => singleline p = true) parts ->
  translate_newlines pendingcr (join [CR] parts) = join [LF] parts.
Proof.
  revert pendingcr.
  induction parts as [|p [|q rest] IH]; intros b H; [reflexivity| |].
  - inversion H; subst. now apply translate_singleline_end.
  - inversion H as [|? ? Hp Hrest]; subst.
    rewrite !join_cons2.
    change (p ++ [CR] ++ join [CR] (q :: rest))
      with (p ++ CR :: join [CR] (q :: rest)).
    rewrite translate_singleline by assumption.
    now rewrite IH.
Qed.

Lemma translate_join_CRLF (pendingcr : bool) (parts : list str) :
  Forall (fun p => singleline p = true) parts ->
  translate_newlines pendingcr (join [CR; LF] parts) = join [LF] parts.
Proof.
  revert pendingcr.
  induction parts as [|p [|q rest] IH]; intros b H; [reflexivity| |].
  - inversion H; subst. now apply translate_singleline_end.
  - inversion H as [|? ? Hp Hrest]; subst.
    rewrite !join_cons2.
    change (p ++ [CR; LF] ++ join [CR; LF] (q :: rest))
      with (p ++ CR :: LF :: join [CR; LF] (q :: rest)).
    rewrite translate_singleline by assumption.
    change (translate_newlines true (LF :: join [CR; LF] (q :: rest)))
      with (translate_newlines false (join [CR; LF] (q :: rest))).
    now rewrite IH.
Qed.

(** X5.  The style of the line endings of the input does not matter:
    the same lines separated by CR LF, by CR or by LF are cleaned to the
    same text; and the text handed to [write] never contains a CR. *)
Theorem newline_style_irrelevant (parts : list str) (content : str) :
  Forall (fun p => singleline p = true) parts ->
  clean_text (join [CR; LF] parts) = clean_text (join [LF] parts)
  /\ clean_text (join [CR] parts) = clean_text (join [LF] parts)
  /\ no_CR (clean_text content) = true.
Proof.
  intros H.
  assert (Hcr : no_CR (clean_text content) = true)
    by apply join_singleline_no_CR, cleaned_line_text.
  revert Hcr. generalize (no_CR (clean_text content)). intros b Hcr.
  unfold clean_text, readlines, universal_newlines.
  assert (Hlf : translate_newlines false (join [LF] parts) = join [LF] parts).
  { apply translate_id. clear -H.
    induction parts as [|p [|q rest] IH]; [reflexivity| |].
    - inversion H; subst. now apply singleline_no_CR.
    - inversion H as [|? ? Hp Hrest]; subst.
      rewrite join_cons2, !no_CR_app, (singleline_no_CR p Hp), (IH Hrest).
      reflexivity. }
  rewrite translate_join_CRLF, translate_join_CR, Hlf by assumption.
  repeat split. exact Hcr.
Qed.

Lemma newline_style_irrelevant_witness :
  let parts := [lit "SELECT 1; -- one"; lit ""; lit "  SELECT 2;"] in
  Forall (fun p => singleline p = true) parts
  /\ clean_text (join [CR; LF] parts) = clean_text (join [LF] parts).
Proof.
  assert (H : Forall (fun p => singleline p = true)
                     [lit "SELECT 1; -- one"; lit ""; lit "  SELECT 2;"])
    by (repeat constructor).
  split; [exact H|].
  exact (proj1 (newline_style_irrelevant _ [] H)).
Defined.

(** * Further properties of [clean_sql] and of the default run *)

Lemma clean_text_fixed (content : str) :
  clean_text (clean_text content) = clean_text content.
Proof.
  unfold clean_text.
  rewrite readlines_join by apply cleaned_line_text.
  now rewrite clean_loop_with_newlines by apply clean_loop_output.
Qed.

Lemma clean_sql_access (w : world) (input_file output_file : path) :
  access (snd (clean_sql input_file output_file w)) = access w.
Proof. apply clean_sql_spec. Qed.

Lemma clean_sql_writable (w : world) (input_file output_file : path) :
  writable (snd (clean_sql input_file output_file w)) = writable w.
Proof. unfold writable. now rewrite clean_sql_access. Qed.

Lemma clean_sql_disk_frame (w : world) (input_file output_file q : path) :
  q <> output_file ->
  disk (snd (clean_sql input_file output_file w)) q = disk w q.
Proof.
  intros Hq. apply String.eqb_neq in Hq.
  pose proof (clean_sql_spec w input_file output_file) as (_ & H).
  cbv zeta in H.
  destruct (disk w input_file) as [[content|]|].
  - destruct H as (_ & H). destruct (access w output_file).
    + destruct H as (_ & H & _). now rewrite H, Hq.
    + destruct H as (_ & H & _). now rewrite H, Hq.
    + destruct H as (_ & H & _). now rewrite H.
  - destruct H as (_ & H & _). now rewrite H.
  - destruct H as (_ & H & _). now rewrite H.
Qed.

Lemma clean_sql_frame (w : world) (input_file output_file q : path) :
  q <> output_file ->
  files (snd (clean_sql input_file output_file w)) q = files w q.
Proof.
  intros Hq. unfold files. now rewrite clean_sql_disk_frame.
Qed.

Lemma clean_sql_failure_stdout
      (w : world) (input_file output_file : path) (e : exception) :
  fst (clean_sql input_file output_file w) = Raise e ->
  stdout (snd (clean_sql input_file output_file w))
  = stdout w ++ [start_message input_file output_file].
Proof.
  intros He.
  pose proof (clean_sql_spec w input_file output_file) as (_ & H).
  cbv zeta in H.
  destruct (disk w input_file) as [[content|]|]; [|tauto..].
  destruct H as (_ & H). destruct (access w output_file); [|tauto..].
  destruct H as (Hr & _). congruence.
Qed.

Lemma clean_sql_opens (w : world) (input_file output_file : path) :
  opens (snd (clean_sql input_file output_file w))
  = opens w
    ++ (ForReading, input_file)
       :: match files w input_file with
          | Some _ => [(ForWriting, output_file)]
          | None => []
          end.
Proof.
  pose proof (clean_sql_spec w input_file output_file) as (_ & H).
  cbv zeta in H. unfold files.
  destruct (disk w input_file) as [[content|]|]; tauto.
Qed.

(** X7.  [clean_sql] calls [open] on the input, for reading, and then,
    only when the input was opened and decoded, on the output, for
    writing.  It opens no other path, and opens nothing for writing
    before the input has been read. *)
Theorem clean_sql_opens_only_its_files
        (w : world) (input_file output_file : path) :
  opens (snd (clean_sql input_file output_file w))
  = opens w
    ++ (ForReading, input_file)
       :: match files w input_file with
          | Some _ => [(ForWriting, output_file)]
          | None => []
          end.
Proof. apply clean_sql_opens. Qed.



(** X9.  Cleaning the output of a successful call again, into any
    writable file, succeeds and reproduces that output character for
    character. *)
Theorem clean_sql_twice
        (w : world) (a b c : path) (content : str) :
  files w a = Some content ->
  writable w b = true ->
  writable w c = true ->
  let w1 := snd (clean_sql a b w) in
  let w2 := snd (clean_sql b c w1) in
  fst (clean_sql b c w1) = Ok tt
  /\ files w1 b = Some (clean_text content)
  /\ files w2 c = Some (clean_text content).
Proof.
  intros Ha Hb Hc w1 w2.
  assert (H1 : files w1 b = Some (clean_text content))
    by now apply clean_sql_written.
  assert (Hw : writable w1 c = true)
    by (unfold w1; now rewrite clean_sql_writable).
  repeat split.
  - now apply (clean_sql_ok w1 b c (clean_text content)).
  - exact H1.
  - unfold w2. rewrite (clean_sql_written w1 b c _ H1 Hw).
    now rewrite clean_text_fixed.
Qed.

Lemma clean_sql_twice_witness :
  exists content,
    files sample_world "dump.sql"%string = Some content
    /\ writable sample_world "dump_cleaned.sql"%string = true
    /\ files (snd (clean_sql "dump_cleaned.sql"%string "dump_cleaned.sql"%string
                     (snd (clean_sql "dump.sql"%string "dump_cleaned.sql"%string
                             sample_world))))
             "dump_cleaned.sql"%string
       = Some (clean_text content).
Proof.
  eexists. split; [reflexivity|]. split; [reflexivity|].
  exact (proj2 (proj2 (clean_sql_twice
                         sample_world "dump.sql"%string "dump_cleaned.sql"%string
                         "dump_cleaned.sql"%string _ eq_refl eq_refl eq_refl))).
Defined.

(** *** The default run *)

Lemma main_steps (path_exists : world -> path -> bool) (w : world) :
  main path_exists w
  = match clean_if_found (path_exists w target_data)
            target_data cleaned_data w with
    | (Ok _, w1) =>
        clean_if_found (path_exists w1 target_schema)
          target_schema cleaned_schema w1
    | (Raise e, w1) => (Raise e, w1)
    end.
Proof.
  unfold main, bind, os_path_exists, clean_if_found.
  destruct (path_exists w target_data); [|reflexivity].
  destruct (clean_sql target_data cleaned_data w) as [[[]|e] w1]; reflexivity.
Qed.

Lemma clean_if_found_opens (found : bool) (w : world) (i o : path) :
  exists new,
    opens (snd (clean_if_found found i o w)) = opens w ++ new
    /\ Forall (opens_of i o) new.
Proof.
  destruct found; simpl.
  - rewrite clean_sql_opens. eexists. split; [reflexivity|].
    constructor; [now left|].
    destruct (files w i); [|constructor].
    constructor; [now right | constructor].
  - exists []. split; [now rewrite app_nil_r | constructor].
Qed.

(** X10.  Dumps that do not exist are skipped silently: when neither is
    there, the default run returns normally, writes no file and prints
    nothing. *)
Theorem main_skips_missing (path_exists : world -> path -> bool) (w : world) :
  path_exists w target_data = false ->
  path_exists w target_schema = false ->
  main path_exists w = (Ok tt, w).
Proof.
  intros Hd Hs. rewrite main_steps, Hd. simpl. now rewrite Hs.
Qed.

Lemma main_skips_missing_witness :
  readable_exists sample_world target_data = false
  /\ readable_exists sample_world target_schema = false
  /\ main readable_exists sample_world = (Ok tt, sample_world).
Proof.
  split; [reflexivity|]. split; [reflexivity|].
  apply (main_skips_missing readable_exists sample_world); reflexivity.
Defined.

(** X11.  Whatever exists and whatever fails, the default run calls
    [open] on the two dumps for reading and on the two [_cleaned] files
    for writing, and on nothing else: a dump is never opened for
    writing. *)
Theorem main_opens_only_its_files
        (path_exists : world -> path -> bool) (w : world) :
  exists new,
    opens (snd (main path_exists w)) = opens w ++ new
    /\ Forall (fun ev => In ev [(ForReading, target_data);
                                (ForWriting, cleaned_data);
                                (ForReading, target_schema);
                                (ForWriting, cleaned_schema)]) new.
Proof.
  rewrite main_steps.
  destruct (clean_if_found_opens (path_exists w target_data) w
              target_data cleaned_data) as (new1 & H1 & F1).
  assert (G1 : Forall (fun ev => In ev [(ForReading, target_data);
                                        (ForWriting, cleaned_data);
                                        (ForReading, target_schema);
                                        (ForWriting, cleaned_schema)]) new1).
  { eapply Forall_impl; [|exact F1]. intros ev [-> | ->]; simpl; auto. }
  destruct (clean_if_found (path_exists w target_data)
              target_data cleaned_data w) as [[[]|e] w1]; simpl in H1.
  - destruct (clean_if_found_opens (path_exists w1 target_schema) w1
                target_schema cleaned_schema) as (new2 & H2 & F2).
    exists (new1 ++ new2). split.
    + now rewrite H2, H1, app_assoc.
    + apply Forall_app. split; [exact G1|].
      eapply Forall_impl; [|exact F2]. intros ev [-> | ->]; simpl; auto.
  - exists new1. auto.
Qed.

(** X12.  An error while cleaning the data dump ends the run: the error
    is the run's error and the schema dump is not attempted, so the run
    is that one call and has printed its opening message only. *)
Theorem main_stops_at_first_error
        (path_exists : world -> path -> bool) (w : world) (e : exception) :
  path_exists w target_data = true ->
  fst (clean_sql target_data cleaned_data w) = Raise e ->
  main path_exists w = clean_sql target_data cleaned_data w
  /\ fst (main path_exists w) = Raise e
  /\ stdout (snd (main path_exists w))
     = stdout w ++ [start_message target_data cleaned_data].
Proof.
  intros Hd He.
  assert (Hmain : main path_exists w = clean_sql target_data cleaned_data w).
  { rewrite main_steps, Hd. unfold clean_if_found at 1.
    destruct (clean_sql target_data cleaned_data w) as [[[]|e'] w1];
      [discriminate He | reflexivity]. }
  rewrite Hmain. repeat split; [exact He|].
  now apply (clean_sql_failure_stdout w _ _ e).
Qed.

Lemma main_stops_at_first_error_witness :
  readable_exists locked_world target_data = true
  /\ fst (clean_sql target_data cleaned_data locked_world)
     = Raise (CannotOpenForWriting cleaned_data)
  /\ fst (main readable_exists locked_world)
     = Raise (CannotOpenForWriting cleaned_data).
Proof.
  split; [reflexivity|]. split; [reflexivity|].
  exact (proj1 (proj2 (main_stops_at_first_error
                         readable_exists locked_world _
                         eq_refl eq_refl))).
Defined.

(** X13.  When both dumps can be read and both [_cleaned] files can be
    written, the default run returns normally and each [_cleaned] file
    holds the cleaned text of its dump. *)
Theorem main_cleans_both
        (path_exists : world -> path -> bool) (w : world)
        (data schema : str) :
  (forall w' p, files w' p <> None -> path_exists w' p = true) ->
  files w target_data = Some data ->
  files w target_schema = Some schema ->
  writable w cleaned_data = true ->
  writable w cleaned_schema = true ->
  fst (main path_exists w) = Ok tt
  /\ files (snd (main path_exists w)) cleaned_data = Some (clean_text data)
  /\ files (snd (main path_exists w)) cleaned_schema
     = Some (clean_text schema).
Proof.
  intros Hex Hd Hs Hwd Hws.
  set (w1 := snd (clean_sql target_data cleaned_data w)).
  assert (Hrun : fst (clean_sql target_data cleaned_data w) = Ok tt)
    by now apply (clean_sql_ok w _ _ data).
  assert (Hout : files w1 cleaned_data = Some (clean_text data))
    by now apply clean_sql_written.
  assert (Hs1 : files w1 target_schema = Some schema)
    by (unfold w1; rewrite clean_sql_frame by discriminate; exact Hs).
  assert (Hws1 : writable w1 cleaned_schema = true)
    by (unfold w1; now rewrite clean_sql_writable).
  assert (Hmain : main path_exists w
                  = clean_sql target_schema cleaned_schema w1).
  { rewrite main_steps.
    rewrite (Hex w target_data) by (rewrite Hd; discriminate).
    unfold clean_if_found at 1. unfold w1 in *.
    destruct (clean_sql target_data cleaned_data w) as [r w'].
    simpl in *. subst r.
    rewrite (Hex w' target_schema) by (rewrite Hs1; discriminate).
    reflexivity. }
  rewrite Hmain. repeat split.
  - now apply (clean_sql_ok w1 _ _ schema).
  - rewrite clean_sql_frame by discriminate. exact Hout.
  - now apply clean_sql_written.
Qed.

Lemma main_cleans_both_witness :
  (forall w' p, files w' p <> None -> readable_exists w' p = true)
  /\ fst (main readable_exists default_world) = Ok tt
  /\ files (snd (main readable_exists default_world)) cleaned_schema
     = Some (lit "CREATE TABLE t (id int);").
Proof.
  assert (Hex : forall w' p, files w' p <> None -> readable_exists w' p = true).
  { intros w' p H. unfold readable_exists, files in *.
    destruct (disk w' p); [reflexivity | now contradiction H]. }
  split; [exact Hex|].
  pose proof (main_cleans_both readable_exists default_world _ _ Hex
                eq_refl eq_refl eq_refl eq_refl) as (H1 & _ & H3).
  split; [exact H1 | exact H3].
Defined.
